(** * Removing EOG artifacts from EEG by linear regression

    A shallow embedding of [static/code/removing-eog-regression.py]
    (lines 13-27): two recordings are wrapped as [mne] raw objects with
    22 EEG and 3 EOG channels, the EOG channels are reduced to two bipolar
    derivations, regression coefficients are estimated on the first
    recording with [np.linalg.solve], and the predicted contamination is
    subtracted from the EEG channels of the second recording.

    Arithmetic.  The script computes with [float64] arrays.  Here the
    samples range over an arbitrary field [F] (a real field where an order
    is needed), that is, every statement below is about the exact-arithmetic
    reading of the array expressions; rounding is not modelled.  Arrays are
    MathComp matrices, [@] is [mulmx], [.T] is [trmx].

    The one place where rounding decides what the script does, and not
    only the last digits of a value, is the solver's test for a singular
    matrix: that test is modelled a second time, over the binary64 numbers
    ([dgesv_info] below). *)

From HB Require Import structures.
From Stdlib Require Import Ascii String PrimFloat.
Set Warnings "-notation-overridden,-ambiguous-paths,-rewrite-rw".
From mathcomp Require Import boot order algebra.
From mathcomp Require Import fingroup perm.

Set Implicit Arguments.
Unset Strict Implicit.
Unset Printing Implicit Defensive.

Import Order.TTheory GRing.Theory Num.Theory.
Local Open Scope ring_scope.

(** ** Exceptions and results

    The two exceptions the script can raise: [ValueError] (from
    [mne.io.RawArray], when the number of rows of the data is not the number
    of channels of [info]) and [numpy.linalg.LinAlgError] (from
    [np.linalg.solve], on a singular matrix).  The specification calls them
    ShapeMismatch and SingularRegression. *)

Variant exn : Set := ValueError | LinAlgError.

Variant result (A : Type) : Type :=
  | Ok of A
  | Raise of exn.

Arguments Raise {A} e.

Definition bind (A B : Type) (r : result A) (k : A -> result B) : result B :=
  match r with
  | Ok x => k x
  | Raise e => Raise e
  end.

Definition rmap (A B : Type) (f : A -> B) (r : result A) : result B :=
  bind r (fun x => Ok (f x)).

Notation "x <- r ;; k" := (bind r (fun x => k))
  (at level 100, r at next level, right associativity).

(** Channel layout of [info = mne.create_info(25, 250,
    ch_types=["eeg"] * 22 + ["eog"] * 3)]. *)

Definition n_eeg : nat := 22.
Definition n_eog : nat := 3.
Definition n_channels : nat := n_eeg + n_eog.

Section Script.

Variable F : fieldType.

(** ** Arrays and raw objects *)

(** A two-dimensional [numpy] array: its shape and its entries. *)
Record ndarray : Type := NdArray {
  nrows : nat;
  ncols : nat;
  values : 'M[F]_(nrows, ncols)
}.

Definition shape (a : ndarray) : nat * nat := (nrows a, ncols a).

(** [a.T] *)
Definition T (a : ndarray) : ndarray := NdArray (values a)^T.

(** An [mne.io.Raw] object built on [info]: [n_channels] rows and
    [n_times] samples, held in the attribute [_data]. *)
Record Raw : Type := MkRaw {
  n_times : nat;
  _data : 'M[F]_(n_eeg + n_eog, n_times)
}.

Definition raw_shape (raw : Raw) : nat * nat := (n_channels, n_times raw).

(** [mne.io.RawArray(data, info)]: raises [ValueError] unless
    [len(data) == len(info["ch_names"])]. *)
Definition RawArray (data : ndarray) : result Raw :=
  match nrows data =P (n_eeg + n_eog)%N with
  | ReflectT e => Ok (MkRaw (castmx (e, erefl) (values data)))
  | ReflectF _ => Raise ValueError
  end.

(** [raw[:22, :][0]] and [raw[22:, :][0]] *)
Definition eeg_rows (raw : Raw) : 'M[F]_(n_eeg, n_times raw) :=
  usubmx (_data raw).
Definition eog_rows (raw : Raw) : 'M[F]_(n_eog, n_times raw) :=
  dsubmx (_data raw).

(** ** The script *)

(** [bip = np.array([[1, -1, 0], [0, -1, 1]])] *)
Definition bip_rows : seq (seq F) := [:: [:: 1; -1; 0]; [:: 0; -1; 1]].

Definition bip : 'M[F]_(2, n_eog) :=
  \matrix_(i, j) nth 0 (nth [::] bip_rows i) j.

(** [raw_eog = bip @ raw[22:, :][0]] and [raw_eeg = raw[:22, :][0]] *)
Definition raw_eog (raw : Raw) : 'M[F]_(2, n_times raw) :=
  bip *m eog_rows raw.
Definition raw_eeg (raw : Raw) : 'M[F]_(n_eeg, n_times raw) :=
  eeg_rows raw.

(** [np.linalg.solve(a, b)], by its documentation: the exact solution [x]
    of the full-rank linear matrix equation [a @ x = b], and [LinAlgError]
    when [a] is singular.  In exact arithmetic that solution is
    [invmx a *m b].  The float64 solver finds [a] singular only when the
    elimination meets a pivot that is exactly zero; on the zero matrix the
    two agree, on other singular matrices they need not ([dgesv_info]
    below). *)
Definition solve (n m : nat) (a : 'M[F]_n) (b : 'M[F]_(n, m)) :
    result 'M[F]_(n, m) :=
  if a \in unitmx then Ok (invmx a *m b) else Raise LinAlgError.

(** The two arguments of [np.linalg.solve] on line 23. *)
Definition gram (raw1 : Raw) : 'M[F]_2 :=
  raw_eog raw1 *m (raw_eog raw1)^T.
Definition cross (raw1 : Raw) : 'M[F]_(2, n_eeg) :=
  raw_eog raw1 *m (raw_eeg raw1)^T.

(** [b = np.linalg.solve(raw1_eog @ raw1_eog.T, raw1_eog @ raw1_eeg.T)] *)
Definition b (raw1 : Raw) : result 'M[F]_(2, n_eeg) :=
  solve (gram raw1) (cross raw1).

(** [eeg_corrected = (raw2_eeg.T - raw2_eog.T @ b).T] *)
Definition eeg_corrected (coef : 'M[F]_(2, n_eeg)) (raw2 : Raw) :
    'M[F]_(n_eeg, n_times raw2) :=
  ((raw_eeg raw2)^T - (raw_eog raw2)^T *m coef)^T.

(** [raw3 = raw2.copy(); raw3._data[:22, :] = eeg] *)
Definition set_eeg (raw2 : Raw) (eeg : 'M[F]_(n_eeg, n_times raw2)) : Raw :=
  MkRaw (col_mx eeg (eog_rows raw2)).

Arguments set_eeg raw2 eeg : clear implicits.

(** Lines 17-27: from the two raw objects to [raw3]. *)
Definition remove_eog (raw1 raw2 : Raw) : result Raw :=
  coef <- b raw1 ;;
  Ok (set_eeg raw2 (eeg_corrected coef raw2)).

(** Lines 14-27: [eeg1] and [eeg2] are the arrays (samples by channels)
    read from the file. *)
Definition script (eeg1 eeg2 : ndarray) : result Raw :=
  raw1 <- RawArray (T eeg1) ;;
  raw2 <- RawArray (T eeg2) ;;
  remove_eog raw1 raw2.

(** ** Notions the statements below refer to *)

(** The predicted contamination [raw2_eog.T @ b], samples by EEG channels. *)
Definition predicted (coef : 'M[F]_(2, n_eeg)) (raw2 : Raw) :
    'M[F]_(n_times raw2, n_eeg) :=
  (raw_eog raw2)^T *m coef.

(** The same offset [o 0 j] added, at every sample [j], to each of the
    three raw EOG channels of a recording. *)
Definition add_offset (raw : Raw) (o : 'rV[F]_(n_times raw)) : Raw :=
  MkRaw (col_mx (eeg_rows raw)
                (\matrix_(i, j) (eog_rows raw i j + o 0 j))).

Arguments add_offset raw o : clear implicits.

(** The EEG rows and the raw EOG rows of a recording, as arrays. *)
Definition eeg_of (raw : Raw) : ndarray := NdArray (eeg_rows raw).
Definition eog_of (raw : Raw) : ndarray := NdArray (eog_rows raw).

(** The array (samples by channels) whose transpose is the data of [raw]. *)
Definition array_of (raw : Raw) : ndarray := NdArray (_data raw)^T.

(** The inputs for which the specification announces a shape error: a
    recording whose channel count does not fit the 22 + 3 layout (and so
    the three columns of [bip]), or recordings of different sample
    counts. *)
Definition spec_shape_mismatch (eeg1 eeg2 : ndarray) : bool :=
  [|| ncols eeg1 != n_channels, ncols eeg2 != n_channels
    | nrows eeg1 != nrows eeg2].

(** The inputs for which the script raises [ValueError]. *)
Definition shape_mismatch (eeg1 eeg2 : ndarray) : bool :=
  (ncols eeg1 != n_channels) || (ncols eeg2 != n_channels).

End Script.

Arguments set_eeg {F} raw2 eeg.
Arguments add_offset {F} raw o.

(** The sum of the absolute values of the entries of a matrix over an
    ordered field: the measure in which "small" is read below. *)
Definition abs_sum (R : realFieldType) (m n : nat) (A : 'M[R]_(m, n)) : R :=
  \sum_i \sum_j `|A i j|.

(** ** Sample recordings over the rationals *)

(** Three raw EOG channels, two samples: [[1, 0], [0, 0], [0, 1]]. *)
Definition eog_demo : 'M[rat]_(n_eog, 2) :=
  \matrix_(i, j) ((i : nat) == (2 * j)%N)%:R.

(** A calibration recording of [2 + N] samples: every EEG channel is
    constantly 1, the EOG channels are [eog_demo] followed by zeros. *)
Definition cal_demo (N : nat) : Raw rat :=
  MkRaw (col_mx (const_mx 1) (row_mx eog_demo 0) : 'M_(n_eeg + n_eog, 2 + N)).

(** A recording of [N] samples in which every channel is constantly [c]. *)
Definition const_raw (N : nat) (c : rat) : Raw rat :=
  MkRaw (const_mx c : 'M_(n_eeg + n_eog, N)).

(** A recording of [N] samples with EEG constantly 1 and EOG at rest. *)
Definition quiet_demo (N : nat) : Raw rat :=
  MkRaw (col_mx (const_mx 1) 0 : 'M_(n_eeg + n_eog, N)).

(** * The rest of the script and its siblings *)

Section ScriptInputs.

Variable F : fieldType.

(** ** [removing-eog-regression.py], lines 10-11 *)





(** ** Views of a recording used in the statements *)


(** A recording with its samples in another order. *)
Definition permute_samples (raw : Raw F) (s : 'S_(n_times raw)) : Raw F :=
  MkRaw (col_perm s (_data raw)).

(** The 25 x 25 matrix that line 25 and line 27 apply, from the left, to
    the data of the target: the identity on the EOG rows, and on the EEG
    rows the identity minus [b.T @ bip] applied to the EOG rows. *)
Definition correction_matrix (coef : 'M[F]_(2, n_eeg)) :
    'M[F]_(n_eeg + n_eog) :=
  block_mx 1%:M (- (coef^T *m bip F)) 0 1%:M.

End ScriptInputs.

Arguments permute_samples {F} raw s.

(** ** The solver's test for singularity, in float64

    [np.linalg.solve] hands the system to LAPACK's [dgesv], which factors
    the matrix by Gaussian elimination with partial pivoting, in binary64,
    and reports [info = i] when the [i]-th pivot [U(i,i)] is exactly zero
    (LAPACK's documentation of [dgesv] and [dgetrf]); numpy raises
    [LinAlgError] exactly when [info] is not 0.  In exact arithmetic a
    pivot is zero exactly when the matrix is singular, which is [solve]'s
    test; with rounding it is not.  What follows is line 18 and the first
    argument of line 23 on float64 samples, and the elimination on a 2 x 2
    matrix such as [G], over the primitive binary64 numbers. *)

(** A 2 x 2 array of float64. *)
Record mat2 : Set :=
  Mat2 { m11 : float; m12 : float; m21 : float; m22 : float }.

(** The sum of products behind [@].  The terms are added from left to
    right; the order is the BLAS's business, and the statements below are
    on inputs on which every product and every partial sum is exact. *)
Definition dot_f64 (u v : seq float) : float :=
  foldl (fun s p => (s + p.1 * p.2)%float) 0%float (zip u v).

(** [raw1_eog = bip @ raw1[22:, :][0]] on the three raw EOG channels
    [x0], [x1] and [x2]: the two bipolar derivations. *)
Definition raw_eog_f64 (x0 x1 x2 : seq float) : seq float * seq float :=
  let samples := zip x0 (zip x1 x2) in
  ([seq dot_f64 [:: 1; -1; 0]%float [:: s.1; s.2.1; s.2.2] | s <- samples],
   [seq dot_f64 [:: 0; -1; 1]%float [:: s.1; s.2.1; s.2.2] | s <- samples]).

(** [raw1_eog @ raw1_eog.T] *)
Definition gram_f64 (x0 x1 x2 : seq float) : mat2 :=
  let e := raw_eog_f64 x0 x1 x2 in
  Mat2 (dot_f64 e.1 e.1) (dot_f64 e.1 e.2)
       (dot_f64 e.2 e.1) (dot_f64 e.2 e.2).

(** The column below a pivot is multiplied by the reciprocal of the
    pivot, or divided by it: LAPACK's versions differ, and the current one
    chooses by the size of the pivot. *)
Variant scaling : Set := ByReciprocal | ByDivision.

Definition multiplier (s : scaling) (x pivot : float) : float :=
  match s with
  | ByReciprocal => (x * (1 / pivot))%float
  | ByDivision => (x / pivot)%float
  end.

(** [info] of [dgesv] on a 2 x 2 matrix.  The pivot of the first column
    is its entry of largest absolute value, the first one on a tie, and
    the rows are exchanged when that is the second; [info] is 1 when this
    pivot is zero.  Otherwise the multiplier [l] is formed, the second
    pivot is [u22 = a22 - l * a12] (on the exchanged rows), and [info] is 2
    when it is zero, 0 when no pivot is. *)
Definition dgesv_info (s : scaling) (a : mat2) : nat :=
  let swap := (abs (m11 a) <? abs (m21 a))%float in
  let p := if swap then (m21 a, m22 a) else (m11 a, m12 a) in
  let q := if swap then (m11 a, m12 a) else (m21 a, m22 a) in
  if (p.1 =? 0)%float then 1%N
  else
    let l := multiplier s q.1 p.1 in
    let u22 := (q.2 - l * p.2)%float in
    if (u22 =? 0)%float then 2%N else 0%N.

(** Does [np.linalg.solve] raise [LinAlgError] on the matrix [a]? *)
Definition raises_f64 (s : scaling) (a : mat2) : bool :=
  dgesv_info s a != 0%N.

(** * [loading-eeg-data.py] *)

HB.instance Definition _ := hasDecEq.Build ascii Ascii.eqb_spec.

(** A Python [str] is the list of its characters. *)
Abbreviation str := (seq ascii).

(** [s.lstrip(chars)], [s.rstrip(chars)] and [s.strip(chars)]: the leading
    (trailing, both) characters that occur in [chars] are removed. *)
Fixpoint lstrip (chars s : str) : str :=
  if s is c :: s' then (if c \in chars then lstrip chars s' else s) else [::].

Definition rstrip (chars s : str) : str := rev (lstrip chars (rev s)).

Definition strip (chars s : str) : str := rstrip chars (lstrip chars s).

(** Does [s] start (end) with one of [chars]? *)
Definition starts_in (chars s : str) : bool :=
  if s is c :: _ then c \in chars else false.

Definition ends_in (chars s : str) : bool := starts_in chars (rev s).

(** The argument ["."] of [strip], and [lambda s: s.strip(".")] (line 7). *)
Definition dot : str := list_ascii_of_string ".".

Definition strip_dots (s : str) : str := strip dot s.

(** [raw.rename_channels(mapping)] with a callable [mapping], on the list
    of channel names: every name is mapped, and [ValueError] is raised when
    the new names are not unique. *)
Definition rename_channels (mapping : str -> str) (ch_names : seq str) :
    result (seq str) :=
  let new_names := [seq mapping s | s <- ch_names] in
  if uniq new_names then Ok new_names else Raise ValueError.

(** Line 7: [raw.rename_channels(lambda s: s.strip("."))]. *)
Definition rename_line7 (ch_names : seq str) : result (seq str) :=
  rename_channels strip_dots ch_names.

Section Reference.

Variable F : fieldType.

(** [data.mean(axis=0)]: the mean over the channels, sample by sample. *)
Definition channel_mean (n N : nat) (d : 'M[F]_(n, N)) : 'rV[F]_N :=
  n%:R^-1 *: \sum_i row i d.

(** [raw.set_eeg_reference("average")] (line 12) on a recording whose
    channels are all EEG channels: the mean over the channels is
    subtracted from every channel. *)
Definition set_eeg_reference (n N : nat) (d : 'M[F]_(n, N)) : 'M[F]_(n, N) :=
  \matrix_(i, j) (d i j - channel_mean d 0 j).

End Reference.

(** * [pca-zca.py] *)

Section Whitening.

Variable R : realFieldType.

(** [np.cov(x)] for [x] with one row per variable and one column per
    observation: the rows are centered and the cross-products divided by
    [n - 1]. *)
Definition row_means (p n : nat) (x : 'M[R]_(p, n)) : 'cV[R]_p :=
  n%:R^-1 *: (x *m const_mx 1).

Definition centered (p n : nat) (x : 'M[R]_(p, n)) : 'M[R]_(p, n) :=
  x - row_means x *m const_mx 1.

Definition cov (p n : nat) (x : 'M[R]_(p, n)) : 'M[R]_p :=
  (n.-1)%:R^-1 *: (centered x *m (centered x)^T).

(** What [np.linalg.eigh(sigma)] returns, by its documentation: the
    eigenvalues, and a matrix whose columns are orthonormal eigenvectors. *)
Definition eigh_spec (p : nat) (sigma : 'M[R]_p) (evals : 'rV[R]_p)
    (evecs : 'M[R]_p) : Prop :=
  evecs^T *m evecs = 1%:M /\ sigma *m evecs = evecs *m diag_mx evals.

(** [d] is [evals**(-1/2)], entry by entry: the number whose square is the
    inverse of the eigenvalue. *)
Definition inv_sqrt_spec (p : nat) (evals d : 'rV[R]_p) : Prop :=
  forall i, d 0 i ^+ 2 * evals 0 i = 1.

(** [z = np.diag(evals**(-1/2)) @ evecs.T @ x] (line 36), with [d] for
    [evals**(-1/2)]. *)
Definition pca (p n : nat) (d : 'rV[R]_p) (evecs : 'M[R]_p)
    (x : 'M[R]_(p, n)) : 'M[R]_(p, n) :=
  diag_mx d *m evecs^T *m x.

(** [z = evecs @ np.diag(evals**(-1/2)) @ evecs.T @ x] (line 53) *)
Definition zca (p n : nat) (d : 'rV[R]_p) (evecs : 'M[R]_p)
    (x : 'M[R]_(p, n)) : 'M[R]_(p, n) :=
  evecs *m diag_mx d *m evecs^T *m x.

(** ** The most extreme points (lines 14-15) *)

(** What [np.argsort(keys)] returns: the indices of [keys], in an order
    in which the keys do not decrease. *)
Definition key_le (keys : seq R) : rel nat :=
  fun i j => nth 0 keys i <= nth 0 keys j.

Definition is_argsort (keys : seq R) (idx : seq nat) : bool :=
  perm_eq idx (iota 0 (size keys)) && sorted (key_le keys) idx.

(** One such order: the stable sort of the indices. *)
Definition argsort (keys : seq R) : seq nat :=
  sort (key_le keys) (iota 0 (size keys)).

(** [set1 = idx[-20:]] and [set2 = list(set(range(n)) - set(set1))], for
    [idx] the argsort of the [n] norms; [set2] is listed in increasing
    order, the statements below depend on its elements only. *)
Definition set1 (idx : seq nat) : seq nat := drop (size idx - 20) idx.

Definition set2 (n : nat) (idx : seq nat) : seq nat :=
  [seq i <- iota 0 n | i \notin set1 idx].

End Whitening.


(** * Sample inputs for the three scripts *)

(** A calibration recording of one sample: every EEG channel is 1, the
    three raw EOG channels are 7, 0 and 25. *)
Definition spike_demo : Raw rat :=
  MkRaw (col_mx (const_mx 1) (\matrix_(i, j) nth 0 [:: 7%:R; 0; 25%:R] i)
         : 'M_(n_eeg + n_eog, 1)).

(** The clean EEG of [cal_demo N]: nothing during the two samples with
    EOG activity, 1 afterwards. *)
Definition clean_demo (N : nat) : 'M[rat]_(n_eeg, 2 + N) :=
  row_mx 0 (const_mx 1).

(** Channel names as an EDF file of the kind read on line 6 stores them,
    and the same names without the padding dots. *)
Definition names_demo : seq str :=
  [seq list_ascii_of_string s | s <- [:: "Fc5."; "Cz.."; "Fp1."]%string].

Definition new_names_demo : seq str :=
  [seq list_ascii_of_string s | s <- [:: "Fc5"; "Cz"; "Fp1"]%string].

(** Two variables, five observations; their covariance matrix is
    [[1, 0], [0, 4]]. *)
Definition x_demo : 'M[rat]_(2, 5) :=
  \matrix_(i, j)
    nth 0 (nth [::] [:: [:: 1; -1; 1; -1; 0]; [:: 2%:R; 2%:R; -2%:R; -2%:R; 0]] i) j.

Definition evals_demo : 'rV[rat]_2 := \row_j nth 0 [:: 1; 4%:R] j.

Definition d_demo : 'rV[rat]_2 := \row_j nth 0 [:: 1; 2%:R^-1] j.

(** Twenty-five keys, 0 to 6 over and over. *)
Definition keys_demo : seq rat := [seq (i %% 7)%:R | i <- iota 0 25].

(** * Properties *)

Section Theory.

Variable F : fieldType.

Implicit Types (raw : Raw F) (a : ndarray F).

(** ** Raw objects *)

Lemma RawArray_ok N (d : 'M[F]_(n_eeg + n_eog, N)) :
  RawArray (NdArray d) = Ok (MkRaw d).
Proof.
rewrite /RawArray /=; case: eqP => // e.
by rewrite (eq_irrelevance e (erefl _)) castmx_id.
Qed.

Lemma RawArray_bad a : nrows a != n_channels -> RawArray a = Raise ValueError.
Proof. by rewrite /RawArray; case: eqP. Qed.

Lemma RawArray_good a :
  nrows a = n_channels -> exists raw, RawArray a = Ok raw /\ n_times raw = ncols a.
Proof.
case: a => r c d /= e; rewrite /n_channels in e; subst r.
by exists (MkRaw d); rewrite RawArray_ok.
Qed.

Lemma raw_eta raw : MkRaw (col_mx (eeg_rows raw) (eog_rows raw)) = raw.
Proof. by case: raw => N d; rewrite /eeg_rows /eog_rows /= vsubmxK. Qed.

Lemma eog_rows_set_eeg raw eeg : eog_rows (set_eeg raw eeg) = eog_rows raw.
Proof. by rewrite /eog_rows /set_eeg /= col_mxKd. Qed.

Lemma eeg_rows_set_eeg raw eeg : eeg_rows (set_eeg raw eeg) = eeg.
Proof. by rewrite /eeg_rows /set_eeg /= col_mxKu. Qed.

(** ** The linear solve *)

Lemma solve_unit n m (g : 'M[F]_n) (c : 'M[F]_(n, m)) :
  g \in unitmx -> solve g c = Ok (invmx g *m c).
Proof. by rewrite /solve => ->. Qed.

Lemma solve_singular n m (g : 'M[F]_n) (c : 'M[F]_(n, m)) :
  g \notin unitmx -> solve g c = Raise LinAlgError.
Proof. by rewrite /solve => /negbTE ->. Qed.

Lemma solve_correct n m (g : 'M[F]_n) (c x : 'M[F]_(n, m)) :
  solve g c = Ok x -> g *m x = c.
Proof.
rewrite /solve; case: ifP => // g_unit [<-].
exact: mulKVmx.
Qed.

End Theory.

Section Regression.

Variable F : fieldType.

Implicit Types (raw : Raw F).

(** ** Shape of the computation *)

Lemma b_unit raw1 :
  gram raw1 \in unitmx -> b raw1 = Ok (invmx (gram raw1) *m cross raw1).
Proof. by move=> g_unit; rewrite /b solve_unit. Qed.

Lemma b_singular raw1 : gram raw1 \notin unitmx -> b raw1 = Raise LinAlgError.
Proof. by move=> g_sing; rewrite /b solve_singular. Qed.

Lemma eeg_correctedE coef raw2 :
  eeg_corrected coef raw2 = raw_eeg raw2 - (predicted coef raw2)^T.
Proof. by rewrite /eeg_corrected /predicted linearB /= trmxK. Qed.

Lemma remove_eog_unit raw1 raw2 :
  gram raw1 \in unitmx ->
  remove_eog raw1 raw2 =
    Ok (set_eeg raw2 (eeg_corrected (invmx (gram raw1) *m cross raw1) raw2)).
Proof. by move=> g_unit; rewrite /remove_eog b_unit. Qed.

Lemma remove_eog_singular raw1 raw2 :
  gram raw1 \notin unitmx -> remove_eog raw1 raw2 = Raise LinAlgError.
Proof. by move=> g_sing; rewrite /remove_eog b_singular. Qed.

(** A 2 x 2 matrix of zeros is singular. *)
Lemma zero_singular (n : nat) : (0 : 'M[F]_n.+1) \notin unitmx.
Proof. by rewrite unitmxE det0 unitr0. Qed.

Lemma raw_eog0 raw : eog_rows raw = 0 -> raw_eog raw = 0.
Proof. by rewrite /raw_eog => ->; rewrite mulmx0. Qed.

Lemma gram0 raw : eog_rows raw = 0 -> gram raw = 0.
Proof. by move/raw_eog0; rewrite /gram => ->; rewrite mul0mx. Qed.

Lemma eeg_corrected_quiet coef raw2 :
  eog_rows raw2 = 0 -> eeg_corrected coef raw2 = eeg_rows raw2.
Proof.
move=> quiet; rewrite eeg_correctedE /predicted raw_eog0 //.
by rewrite trmx0 mul0mx trmx0 subr0.
Qed.

Lemma eeg_corrected0 raw2 : eeg_corrected 0 raw2 = eeg_rows raw2.
Proof. by rewrite eeg_correctedE /predicted mulmx0 trmx0 subr0. Qed.

Lemma gram_set_eeg raw X : gram (set_eeg raw X) = gram raw.
Proof. by rewrite /gram /raw_eog eog_rows_set_eeg. Qed.

Lemma cross_set_eeg raw X : cross (set_eeg raw X) = raw_eog raw *m X^T.
Proof. by rewrite /cross /raw_eog /raw_eeg eog_rows_set_eeg eeg_rows_set_eeg. Qed.

Lemma raw_eog_set_eeg raw X : raw_eog (set_eeg raw X) = raw_eog raw.
Proof. by rewrite /raw_eog eog_rows_set_eeg. Qed.

Lemma set_eeg_set_eeg raw X Y : set_eeg (set_eeg raw X) Y = set_eeg raw Y.
Proof. by rewrite /set_eeg eog_rows_set_eeg. Qed.

Lemma set_eeg_id raw : set_eeg raw (eeg_rows raw) = raw.
Proof. exact: raw_eta. Qed.

(** Correcting a recording whose EEG rows have no cross-product with its
    bipolar EOG rows, with coefficients estimated on itself, changes
    nothing. *)
Lemma uncorrelated_noop raw :
  gram raw \in unitmx -> cross raw = 0 ->
  b raw = Ok 0 /\ remove_eog raw raw = Ok raw.
Proof.
move=> g_unit c0.
have b0 : b raw = Ok 0 by rewrite b_unit // c0 mulmx0.
by rewrite /remove_eog b0 /= eeg_corrected0 set_eeg_id.
Qed.

Lemma remove_eog_quiet raw1 raw2 :
  gram raw1 \in unitmx -> eog_rows raw2 = 0 -> remove_eog raw1 raw2 = Ok raw2.
Proof.
move=> g_unit quiet.
by rewrite remove_eog_unit // eeg_corrected_quiet // set_eeg_id.
Qed.

(** The normal equations, read on the residual: after a recording is
    corrected with the coefficients estimated on itself, its EEG rows have
    no cross-product left with its bipolar EOG rows. *)
Lemma self_corrected_cross0 raw :
  gram raw \in unitmx ->
  cross (set_eeg raw (eeg_corrected (invmx (gram raw) *m cross raw) raw)) = 0.
Proof.
move=> g_unit; rewrite cross_set_eeg /eeg_corrected trmxK mulmxBr mulmxA.
by rewrite -/(gram raw) -/(cross raw) mulKVmx // subrr.
Qed.

Lemma gram_rank raw : (\rank (gram raw) <= n_times raw)%N.
Proof.
apply: leq_trans (mxrankM_maxl _ _) _.
exact: rank_leq_col.
Qed.

Lemma short_gram_singular raw : (n_times raw < 2)%N -> gram raw \notin unitmx.
Proof.
move=> short; apply/negP=> /mxrank_unit rank2.
by have := gram_rank raw; rewrite rank2 leqNgt short.
Qed.

End Regression.

Section Float64.

Lemma zip_nseq (A B : Type) n (x : A) (y : B) :
  zip (nseq n x) (nseq n y) = nseq n (x, y).
Proof. by elim: n => [|n IH] //=; rewrite IH. Qed.

Lemma dot_f64_zeros n : dot_f64 (nseq n 0%float) (nseq n 0%float) = 0%float.
Proof. by rewrite /dot_f64 zip_nseq; elim: n. Qed.

Lemma raw_eog_f64_zeros n :
  raw_eog_f64 (nseq n 0%float) (nseq n 0%float) (nseq n 0%float)
  = (nseq n 0%float, nseq n 0%float).
Proof. by rewrite /raw_eog_f64 !zip_nseq !map_nseq. Qed.

Lemma gram_f64_zeros n :
  gram_f64 (nseq n 0%float) (nseq n 0%float) (nseq n 0%float)
  = Mat2 0 0 0 0.
Proof. by rewrite /gram_f64 raw_eog_f64_zeros /= !dot_f64_zeros. Qed.

End Float64.

Section Claims.

Variable F : fieldType.

Implicit Types (raw : Raw F).

(** C1.  The coefficient matrix computed on line 23 solves the normal
    equations: with [calibrationBipolarEOG] the bipolar transform applied to
    the raw EOG channels of the calibration recording,
    [G = calibrationBipolarEOG @ calibrationBipolarEOG.T] and
    [C = calibrationBipolarEOG @ calibrationEEG.T], whenever [G] is
    non-singular the script obtains a matrix [B] and [G @ B = C]. *)
Theorem coefficients_solve_normal_equations raw1 :
  let calibrationBipolarEOG := bip F *m eog_rows raw1 in
  let G := calibrationBipolarEOG *m calibrationBipolarEOG^T in
  let C := calibrationBipolarEOG *m (eeg_rows raw1)^T in
  G \in unitmx ->
  exists B, b raw1 = Ok B /\ G *m B = C.
Proof.
move=> E G C g_unit; exists (invmx G *m C); split; first exact: b_unit.
exact: mulKVmx.
Qed.

(** C2.  When [G] is non-singular the script returns the target with its
    EEG rows replaced by [targetEEG - (targetBipolarEOG.T @ B).T], where [B]
    is the coefficient matrix estimated on the calibration recording; entry
    by entry, the corrected EEG sample of channel [i] at time [j] is the
    target's sample minus the sum over the two bipolar channels [k] of
    [targetBipolarEOG[k, j] * B[k, i]]. *)
Theorem corrected_eeg_is_target_minus_prediction raw1 raw2 :
  let targetEEG := eeg_rows raw2 in
  let targetBipolarEOG := bip F *m eog_rows raw2 in
  gram raw1 \in unitmx ->
  exists B, exists correctedEEG,
    [/\ b raw1 = Ok B,
        remove_eog raw1 raw2 = Ok (set_eeg raw2 correctedEEG),
        correctedEEG = targetEEG - (targetBipolarEOG^T *m B)^T
      & forall i j,
          correctedEEG i j
          = targetEEG i j - \sum_k targetBipolarEOG k j * B k i].
Proof.
move=> eeg eog g_unit.
exists (invmx (gram raw1) *m cross raw1).
exists (eeg - (eog^T *m (invmx (gram raw1) *m cross raw1))^T).
split=> [||//|i j]; first exact: b_unit.
  by rewrite remove_eog_unit // eeg_correctedE.
by rewrite !mxE; congr (_ - _); apply: eq_bigr => k _; rewrite !mxE.
Qed.

(** C3.  On valid inputs (a calibration recording with non-singular [G])
    the script returns a recording [raw3] of the target's shape, 25 channels
    by the target's number of samples, in the target's channel layout; its
    EOG rows are the target's EOG rows, and every entry outside the 22 EEG
    rows is the target's entry. *)
Theorem output_keeps_shape_and_eog raw1 raw2 :
  gram raw1 \in unitmx ->
  exists eeg3,
    let raw3 := set_eeg raw2 eeg3 in
    [/\ remove_eog raw1 raw2 = Ok raw3,
        raw_shape raw3 = raw_shape raw2,
        eog_rows raw3 = eog_rows raw2
      & forall (i : 'I_(n_eeg + n_eog)) j,
          (n_eeg <= i)%N -> _data raw3 i j = _data raw2 i j].
Proof.
move=> g_unit; eexists; split; first exact: remove_eog_unit.
- by [].
- exact: eog_rows_set_eeg.
move=> i j le_i; rewrite /set_eeg /= mxE.
case: (split_ordP i) => k Di; first by move: le_i; rewrite Di /= leqNgt ltn_ord.
by rewrite /eog_rows mxE Di.
Qed.

(** C4, amended.  A calibration recording whose raw EOG channels are all
    zero has [G = 0], which is singular, and the script raises
    [LinAlgError] (the specification's SingularRegression) instead of
    returning a recording.  This is so in float64 as well: the matrix [G]
    formed from all-zero channels is the zero matrix, and the elimination
    stops at a first pivot that is exactly zero. *)
Theorem zero_calibration_raises raw1 raw2 :
  eog_rows raw1 = 0 ->
  [/\ gram raw1 = 0, gram raw1 \notin unitmx,
      remove_eog raw1 raw2 = Raise LinAlgError
    & let z := nseq (n_times raw1) 0%float in
      gram_f64 z z z = Mat2 0 0 0 0 /\ forall s, raises_f64 s (gram_f64 z z z)].
Proof.
move=> quiet; have g0 := gram0 quiet.
have g_sing : gram raw1 \notin unitmx by rewrite g0 zero_singular.
split=> //; first exact: remove_eog_singular.
by rewrite /= gram_f64_zeros; split=> // s; case: s.
Qed.

(** C10.  When the raw EOG channels of the target are all zero and [G] is
    non-singular, the predicted contamination is the zero matrix and the
    script returns the target itself: the corrected EEG rows are the
    target's EEG rows. *)
Theorem quiet_target_is_returned raw1 raw2 :
  eog_rows raw2 = 0 -> gram raw1 \in unitmx ->
  exists B,
    [/\ b raw1 = Ok B, predicted B raw2 = 0,
        eeg_corrected B raw2 = eeg_rows raw2
      & remove_eog raw1 raw2 = Ok raw2].
Proof.
move=> quiet g_unit; exists (invmx (gram raw1) *m cross raw1).
split; first exact: b_unit.
- by rewrite /predicted raw_eog0 // trmx0 mul0mx.
- exact: eeg_corrected_quiet.
by rewrite remove_eog_unit // eeg_corrected_quiet // /set_eeg raw_eta.
Qed.

End Claims.

Section CommonMode.

Variable F : fieldType.

Implicit Types (raw : Raw F).

Lemma bip_row_sum (i : 'I_2) : \sum_j bip F i j = 0.
Proof.
rewrite !big_ord_recl big_ord0 !mxE /=.
by case: i => [[|[|i]] lt_i] //=; rewrite ?addr0 ?add0r ?subrr ?addNr.
Qed.

Lemma eeg_rows_add_offset raw o : eeg_rows (add_offset raw o) = eeg_rows raw.
Proof. by rewrite /eeg_rows /add_offset /= col_mxKu. Qed.

Lemma raw_eog_add_offset raw o : raw_eog (add_offset raw o) = raw_eog raw.
Proof.
rewrite /raw_eog {1}/eog_rows /add_offset /= col_mxKd.
apply/matrixP=> i j; rewrite !mxE.
rewrite (eq_bigr (fun k => bip F i k * eog_rows raw k j + bip F i k * o 0 j)).
  by move=> k _; rewrite mxE mulrDr.
by rewrite big_split /= -mulr_suml bip_row_sum mul0r addr0.
Qed.

Lemma gram_add_offset raw o : gram (add_offset raw o) = gram raw.
Proof. by rewrite /gram raw_eog_add_offset. Qed.

Lemma cross_add_offset raw o : cross (add_offset raw o) = cross raw.
Proof. by rewrite /cross /raw_eeg raw_eog_add_offset eeg_rows_add_offset. Qed.

Lemma b_add_offset raw o : b (add_offset raw o) = b raw.
Proof. by rewrite /b gram_add_offset cross_add_offset. Qed.

Lemma eeg_corrected_add_offset coef raw o :
  eeg_corrected coef (add_offset raw o) = eeg_corrected coef raw.
Proof.
by rewrite /eeg_corrected /raw_eeg raw_eog_add_offset eeg_rows_add_offset.
Qed.

(** C9.  Each row of [bip] sums to zero, so adding an offset [o1] (one value
    per sample) to the three raw EOG channels of the calibration recording
    and an offset [o2] to those of the target changes neither the bipolar
    EOG derivations nor the estimated coefficients, and the outcome of the
    script has the same corrected EEG rows (or is the same exception). *)
Theorem bipolar_rejects_common_offset raw1 raw2 o1 o2 :
  [/\ forall i, \sum_j bip F i j = 0,
      raw_eog (add_offset raw1 o1) = raw_eog raw1,
      raw_eog (add_offset raw2 o2) = raw_eog raw2,
      b (add_offset raw1 o1) = b raw1
    & rmap (@eeg_of F) (remove_eog (add_offset raw1 o1) (add_offset raw2 o2))
      = rmap (@eeg_of F) (remove_eog raw1 raw2)].
Proof.
split; first exact: bip_row_sum.
- exact: raw_eog_add_offset.
- exact: raw_eog_add_offset.
- exact: b_add_offset.
rewrite /remove_eog b_add_offset; case: (b raw1) => [coef | e] //=.
by rewrite /rmap /= /eeg_of !eeg_rows_set_eeg eeg_corrected_add_offset.
Qed.

End CommonMode.

Section Shapes.

Variable F : fieldType.

Implicit Types (raw : Raw F) (a : ndarray F).

Lemma RawArray_T_array_of raw : RawArray (T (array_of raw)) = Ok raw.
Proof. by case: raw => N d; rewrite /T /array_of /= RawArray_ok trmxK. Qed.

Lemma script_array_of raw1 raw2 :
  script (array_of raw1) (array_of raw2) = remove_eog raw1 raw2.
Proof. by rewrite /script !RawArray_T_array_of. Qed.

Lemma script_typed N1 N2 (X1 : 'M[F]_(N1, n_eeg + n_eog))
    (X2 : 'M[F]_(N2, n_eeg + n_eog)) :
  script (NdArray X1) (NdArray X2) = remove_eog (MkRaw X1^T) (MkRaw X2^T).
Proof. by rewrite /script /T /= !RawArray_ok. Qed.

Lemma remove_eog_no_ValueError raw1 raw2 :
  remove_eog raw1 raw2 <> Raise ValueError.
Proof. by rewrite /remove_eog /b /solve; case: ifP. Qed.

(** C5, as the code has it.  The script raises [ValueError] (the
    specification's ShapeMismatch) exactly when one of the two input arrays
    does not have 25 columns, one per channel of [info]; [bip] is a
    constant with one column per EOG channel of that layout, and the numbers
    of samples of the two recordings play no part. *)
Theorem value_error_iff_channel_count (eeg1 eeg2 : ndarray F) :
  script eeg1 eeg2 = Raise ValueError <-> shape_mismatch eeg1 eeg2.
Proof.
rewrite /shape_mismatch /script.
have [bad1 | good1] := boolP (ncols eeg1 != n_channels).
  by rewrite RawArray_bad.
have [raw1 [-> _]] : exists raw, RawArray (T eeg1) = Ok raw /\ n_times raw = ncols (T eeg1).
  by apply: RawArray_good; apply/eqP; rewrite -[_ == _]negbK.
have [bad2 | good2] /= := boolP (ncols eeg2 != n_channels).
  by rewrite RawArray_bad.
have [raw2 [-> _]] : exists raw, RawArray (T eeg2) = Ok raw /\ n_times raw = ncols (T eeg2).
  by apply: RawArray_good; apply/eqP; rewrite -[_ == _]negbK.
by split=> // /remove_eog_no_ValueError.
Qed.

(** C6, as the code has it.  For a calibration array of 1000 samples and a
    target array of 500 samples, both with 22 EEG and 3 EOG channels, and a
    non-singular [G], the script succeeds; the recording it returns has
    shape 25 by 500, its last 3 rows are the target's raw EOG rows and its
    first 22 rows are the corrected EEG values. *)
Theorem scenario_1000_500 (X1 : 'M[F]_(1000, n_eeg + n_eog))
    (X2 : 'M[F]_(500, n_eeg + n_eog)) :
  let raw1 := MkRaw X1^T in
  let raw2 := MkRaw X2^T in
  gram raw1 \in unitmx ->
  exists B, exists raw3,
    [/\ script (NdArray X1) (NdArray X2) = Ok raw3,
        b raw1 = Ok B,
        raw_shape raw3 = (25, 500)%N,
        eog_of raw3 = eog_of raw2
      & eeg_of raw3 = NdArray (eeg_corrected B raw2)].
Proof.
move=> raw1 raw2 g_unit.
exists (invmx (gram raw1) *m cross raw1); eexists; split.
- by rewrite script_typed; exact: remove_eog_unit.
- exact: b_unit.
- by [].
- by rewrite /eog_of eog_rows_set_eeg.
by rewrite /eeg_of eeg_rows_set_eeg.
Qed.

End Shapes.

Section Recorrection.

Variable R : realFieldType.

Implicit Types (raw : Raw R).

Lemma abs_sum_ge0 m n (A : 'M[R]_(m, n)) : 0 <= abs_sum A.
Proof. by apply: sumr_ge0 => i _; apply: sumr_ge0 => j _; exact: normr_ge0. Qed.

Lemma row_abs_sum_le m n (A : 'M[R]_(m, n)) i :
  \sum_j `|A i j| <= abs_sum A.
Proof.
rewrite /abs_sum (bigD1 i) //= lerDl.
by apply: sumr_ge0 => k _; apply: sumr_ge0 => j _; exact: normr_ge0.
Qed.

(** Entries of a product, bounded through the entries of the right factor. *)
Lemma mulmx_entry_le m n p (A : 'M[R]_(m, n)) (B : 'M[R]_(n, p)) d :
  0 <= d -> (forall k j, `|B k j| <= d) ->
  forall i j, `|(A *m B) i j| <= abs_sum A * d.
Proof.
move=> d_ge0 B_le i j; rewrite mxE.
apply: le_trans (ler_norm_sum _ _ _) _.
apply: le_trans (_ : \sum_k `|A i k| * d <= _).
  by apply: ler_sum => k _; rewrite normrM ler_wpM2l.
by rewrite -mulr_suml ler_wpM2r // row_abs_sum_le.
Qed.

Lemma scaled_lt (M K eps : R) :
  0 <= M -> M < K -> 0 < eps -> M * (eps / K) < eps.
Proof.
move=> M_ge0 ltMK eps_gt0.
have K_gt0 : 0 < K by exact: le_lt_trans ltMK.
by rewrite mulrCA gtr_pMr // ltr_pdivrMr // mul1r.
Qed.

(** C8.  Fix the EOG rows of a recording (with non-singular [G]) and let
    its EEG rows [X] vary, as in a recording that was corrected before.
    The correlation of EOG and EEG is read as the script computes it, the
    cross-product [C] of the bipolar EOG rows and the EEG rows.
    Re-estimating the coefficients on the recording itself and correcting
    it again is a no-op when [C] is zero, and tends to a no-op as [C]
    vanishes: for every
    [eps > 0] there is a [delta > 0] such that, when all entries of [C] are
    below [delta] in absolute value, all entries of the re-estimated [B] and
    all changes made to the EEG rows are below [eps]. *)
Theorem recorrection_tends_to_noop raw :
  gram raw \in unitmx ->
  (forall X,
     let corrected := set_eeg raw X in
     cross corrected = 0 ->
     b corrected = Ok 0 /\ remove_eog corrected corrected = Ok corrected)
  /\ (forall eps, 0 < eps ->
      exists2 delta, 0 < delta &
        forall X,
          let corrected := set_eeg raw X in
          (forall k i, `|cross corrected k i| < delta) ->
          exists B, exists Y,
            [/\ b corrected = Ok B,
                forall k i, `|B k i| < eps,
                remove_eog corrected corrected = Ok (set_eeg raw Y)
              & forall i j, `|Y i j - X i j| < eps]).
Proof.
move=> g_unit; split=> [X corrected | eps eps_gt0].
  by apply: uncorrelated_noop; rewrite gram_set_eeg.
pose M1 := abs_sum (invmx (gram raw)); pose M2 := abs_sum (raw_eog raw)^T.
have M1_ge0 : 0 <= M1 by exact: abs_sum_ge0.
have M2_ge0 : 0 <= M2 by exact: abs_sum_ge0.
have M21_ge0 : 0 <= M2 * M1 by exact: mulr_ge0.
pose K := 1 + M1 + M2 * M1.
have K_gt0 : 0 < K by rewrite /K -addrA ltr_pwDl // addr_ge0.
have ltM1K : M1 < K by rewrite /K -addrA ltr_pwDl // lerDl.
have ltM21K : M2 * M1 < K by rewrite /K ltrDr ltr_pwDl.
exists (eps / K); first exact: divr_gt0.
move=> X corrected C_small.
have d_ge0 : 0 <= eps / K by rewrite ltW ?divr_gt0.
have g_unit' : gram corrected \in unitmx by rewrite gram_set_eeg.
pose B := invmx (gram raw) *m cross corrected.
have B_le k i : `|B k i| <= M1 * (eps / K).
  by apply: mulmx_entry_le => // l i'; exact/ltW/C_small.
exists B; exists (eeg_corrected B corrected); split.
- by rewrite b_unit // gram_set_eeg.
- by move=> k i; apply: le_lt_trans (B_le k i) _; exact: scaled_lt.
- by rewrite remove_eog_unit // gram_set_eeg set_eeg_set_eeg.
move=> i j; rewrite eeg_correctedE /raw_eeg eeg_rows_set_eeg.
rewrite /predicted raw_eog_set_eeg.
have -> : (X - ((raw_eog raw)^T *m B)^T) i j - X i j
          = - ((raw_eog raw)^T *m B) j i.
  by rewrite 3!mxE addrC addKr.
rewrite normrN.
apply: (@le_lt_trans _ _ (M2 * (M1 * (eps / K)))).
  by apply: mulmx_entry_le => //; exact: mulr_ge0.
by rewrite mulrA; exact: scaled_lt.
Qed.

End Recorrection.

(** * The sample recordings *)

Section Samples.

Lemma bip_eog_demo : bip rat *m eog_demo = 1%:M.
Proof.
apply/matrixP=> i j; rewrite !mxE !big_ord_recl big_ord0 !mxE /=.
case: i => [[|[|i]] lt_i] //=; case: j => [[|[|j]] lt_j] //=;
  by rewrite ?mulr0 ?mul0r ?mulr1 ?addr0 ?add0r.
Qed.

Lemma raw_eog_cal_demo N : raw_eog (cal_demo N) = row_mx 1%:M 0.
Proof.
by rewrite /raw_eog /eog_rows /cal_demo /= col_mxKd mul_mx_row bip_eog_demo mulmx0.
Qed.

Lemma gram_cal_demo N : gram (cal_demo N) = 1%:M.
Proof.
rewrite /gram raw_eog_cal_demo tr_row_mx mul_row_col.
by rewrite trmx1 mulmx1 trmx0 mulmx0 addr0.
Qed.

Lemma gram_cal_demo_unit N : gram (cal_demo N) \in unitmx.
Proof. by rewrite gram_cal_demo unitmx1. Qed.

Lemma eog_rows_quiet_demo N : eog_rows (quiet_demo N) = 0.
Proof. by rewrite /eog_rows /quiet_demo /= col_mxKd. Qed.

Lemma eog_rows_const_raw0 N : eog_rows (const_raw N 0) = 0.
Proof. by apply/matrixP=> i j; rewrite /eog_rows /const_raw /= !mxE. Qed.

Lemma gram_const_raw0_singular N : gram (const_raw N 0) \notin unitmx.
Proof. by rewrite gram0 ?zero_singular // eog_rows_const_raw0. Qed.

End Samples.

(** * Instances on the sample recordings *)

Lemma coefficients_solve_normal_equations_witness :
  gram (cal_demo 0) \in unitmx
  /\ exists B, b (cal_demo 0) = Ok B /\ gram (cal_demo 0) *m B = cross (cal_demo 0).
Proof.
split; first exact: gram_cal_demo_unit.
exact: (@coefficients_solve_normal_equations _ (cal_demo 0)
          (gram_cal_demo_unit 0)).
Defined.

Lemma corrected_eeg_is_target_minus_prediction_witness :
  gram (cal_demo 0) \in unitmx
  /\ exists B, exists correctedEEG,
       [/\ b (cal_demo 0) = Ok B,
           remove_eog (cal_demo 0) (const_raw 3 1)
           = Ok (set_eeg (const_raw 3 1) correctedEEG),
           correctedEEG
           = eeg_rows (const_raw 3 1)
             - ((bip rat *m eog_rows (const_raw 3 1))^T *m B)^T
         & forall i j,
             correctedEEG i j
             = eeg_rows (const_raw 3 1) i j
               - \sum_k (bip rat *m eog_rows (const_raw 3 1)) k j * B k i].
Proof.
split; first exact: gram_cal_demo_unit.
exact: (@corrected_eeg_is_target_minus_prediction _ (cal_demo 0)
          (const_raw 3 1) (gram_cal_demo_unit 0)).
Defined.

Lemma output_keeps_shape_and_eog_witness :
  gram (cal_demo 0) \in unitmx
  /\ exists eeg3,
       let raw3 := set_eeg (const_raw 3 1) eeg3 in
       [/\ remove_eog (cal_demo 0) (const_raw 3 1) = Ok raw3,
           raw_shape raw3 = raw_shape (const_raw 3 1),
           eog_rows raw3 = eog_rows (const_raw 3 1)
         & forall (i : 'I_(n_eeg + n_eog)) j,
             (n_eeg <= i)%N -> _data raw3 i j = _data (const_raw 3 1) i j].
Proof.
split; first exact: gram_cal_demo_unit.
exact: (@output_keeps_shape_and_eog _ (cal_demo 0) (const_raw 3 1)
          (gram_cal_demo_unit 0)).
Defined.

Lemma zero_calibration_raises_witness :
  eog_rows (const_raw 4 0) = 0
  /\ [/\ gram (const_raw 4 0) = 0, gram (const_raw 4 0) \notin unitmx,
         remove_eog (const_raw 4 0) (const_raw 3 1) = Raise LinAlgError
       & let z := nseq 4 0%float in
         gram_f64 z z z = Mat2 0 0 0 0
         /\ forall s, raises_f64 s (gram_f64 z z z)].
Proof.
split; first exact: eog_rows_const_raw0.
exact: (@zero_calibration_raises _ (const_raw 4 0) (const_raw 3 1)
          (eog_rows_const_raw0 4)).
Defined.

(** C4, as the specification words it (the script raises whenever [G] is
    non-invertible), fails in float64.  A calibration recording of one
    sample whose raw EOG channels are 7, 0 and 25 has the bipolar
    derivations 7 and 25 and [G = [[49, 175], [175, 625]]], computed
    without any rounding; [G] is singular, and yet the elimination meets no
    zero pivot (the second one is [-2^-45]): the solver reports no error
    and [np.linalg.solve] returns an array. *)
Lemma singular_gram_passes_float64_solver :
  [/\ n_times spike_demo = 1%N,
      forall i j,
        gram spike_demo i j
        = nth 0 (nth [::] [:: [:: 49%:R; 175%:R]; [:: 175%:R; 625%:R]] i) j,
      gram spike_demo \notin unitmx,
      gram_f64 [:: 7%float] [:: 0%float] [:: 25%float]
      = Mat2 49 175 175 625
    & forall s,
        dgesv_info s (Mat2 49 175 175 625) = 0%N
        /\ raises_f64 s (Mat2 49 175 175 625) = false].
Proof.
split=> // [i j | | s]; last by case: s.
  rewrite /gram /raw_eog /eog_rows /spike_demo /= col_mxKd.
  do 3!rewrite !mxE ?big_ord_recl ?big_ord0.
  by case: i => [[|[|i]] lt_i] //=; case: j => [[|[|j]] lt_j] //=;
     apply/eqP.
exact: (@short_gram_singular _ spike_demo isT).
Qed.

Lemma quiet_target_is_returned_witness :
  [/\ eog_rows (quiet_demo 3) = 0, gram (cal_demo 0) \in unitmx
    & exists B,
        [/\ b (cal_demo 0) = Ok B, predicted B (quiet_demo 3) = 0,
            eeg_corrected B (quiet_demo 3) = eeg_rows (quiet_demo 3)
          & remove_eog (cal_demo 0) (quiet_demo 3) = Ok (quiet_demo 3)]].
Proof.
split; [exact: eog_rows_quiet_demo | exact: gram_cal_demo_unit |].
exact: (@quiet_target_is_returned _ (cal_demo 0) (quiet_demo 3)
          (eog_rows_quiet_demo 3) (gram_cal_demo_unit 0)).
Defined.

(** C5, as the specification words it (a shape error whenever the sample
    counts of calibration and target differ), fails: a calibration array of
    1000 samples and a target array of 500 samples, both with 25 channels,
    are inputs for which the specification announces a shape error, and the
    script returns a recording. *)
Lemma sample_counts_may_differ :
  let eeg1 := array_of (cal_demo 998) in
  let eeg2 := array_of (quiet_demo 500) in
  [/\ shape eeg1 = (1000, 25)%N, shape eeg2 = (500, 25)%N,
      spec_shape_mismatch eeg1 eeg2
    & script eeg1 eeg2 = Ok (quiet_demo 500)].
Proof.
split=> //; rewrite script_array_of.
by apply: remove_eog_quiet; [exact: gram_cal_demo_unit | exact: eog_rows_quiet_demo].
Qed.

(** C6, as the specification words it (the script succeeds on every
    calibration of that layout), fails: on a calibration array of 1000
    samples by 25 channels that is zero everywhere and a target array of
    500 samples by 25 channels, the script raises [LinAlgError]. *)
Lemma flat_calibration_1000_500_raises :
  let eeg1 := array_of (const_raw 1000 0) in
  let eeg2 := array_of (const_raw 500 1) in
  [/\ shape eeg1 = (1000, 25)%N, shape eeg2 = (500, 25)%N
    & script eeg1 eeg2 = Raise LinAlgError].
Proof.
split=> //; rewrite script_array_of.
by apply: remove_eog_singular; exact: gram_const_raw0_singular.
Qed.

Lemma scenario_1000_500_witness :
  let X1 : 'M[rat]_(1000, n_eeg + n_eog) := (_data (cal_demo 998))^T in
  let X2 : 'M[rat]_(500, n_eeg + n_eog) := (_data (const_raw 500 1))^T in
  let raw1 := MkRaw X1^T in
  let raw2 := MkRaw X2^T in
  gram raw1 \in unitmx
  /\ exists B, exists raw3,
       [/\ script (NdArray X1) (NdArray X2) = Ok raw3,
           b raw1 = Ok B,
           raw_shape raw3 = (25, 500)%N,
           eog_of raw3 = eog_of raw2
         & eeg_of raw3 = NdArray (eeg_corrected B raw2)].
Proof.
move=> X1 X2 raw1 raw2.
have g_unit : gram raw1 \in unitmx.
  by rewrite /raw1 /X1 trmxK; exact: (gram_cal_demo_unit 998).
split; first exact: g_unit.
exact: (@scenario_1000_500 _ X1 X2 g_unit).
Defined.

Lemma recorrection_tends_to_noop_witness :
  gram (cal_demo 0) \in unitmx
  /\ ((forall X,
         let corrected := set_eeg (cal_demo 0) X in
         cross corrected = 0 ->
         b corrected = Ok 0 /\ remove_eog corrected corrected = Ok corrected)
      /\ (forall eps : rat, 0 < eps ->
          exists2 delta, 0 < delta &
            forall X,
              let corrected := set_eeg (cal_demo 0) X in
              (forall k i, `|cross corrected k i| < delta) ->
              exists B, exists Y,
                [/\ b corrected = Ok B,
                    forall k i, `|B k i| < eps,
                    remove_eog corrected corrected
                    = Ok (set_eeg (cal_demo 0) Y)
                  & forall i j, `|Y i j - X i j| < eps])).
Proof.
split; first exact: gram_cal_demo_unit.
exact: (@recorrection_tends_to_noop _ (cal_demo 0) (gram_cal_demo_unit 0)).
Defined.

(** * Further properties of the regression *)

Section Further.

Variable F : fieldType.

Implicit Types (raw : Raw F).

(** The coefficients are determined by the normal equations: when [G] is
    non-singular, any matrix [B'] with [G @ B' = C] is the matrix the
    script computes on line 23. *)
Theorem coefficients_unique raw1 (B' : 'M[F]_(2, n_eeg)) :
  gram raw1 \in unitmx -> gram raw1 *m B' = cross raw1 -> b raw1 = Ok B'.
Proof. by move=> g_unit eq_c; rewrite b_unit // -eq_c mulKmx. Qed.

(** Correcting a recording with the coefficients estimated on itself
    (lines 17-27 run with [raw2 = raw1]) leaves EEG rows that have no
    cross-product with the bipolar EOG rows, and correcting the result once
    more in the same way returns it unchanged. *)
Theorem self_correction_is_idempotent raw :
  gram raw \in unitmx ->
  exists raw3,
    [/\ remove_eog raw raw = Ok raw3, cross raw3 = 0
      & remove_eog raw3 raw3 = Ok raw3].
Proof.
move=> g_unit.
exists (set_eeg raw (eeg_corrected (invmx (gram raw) *m cross raw) raw)).
have c0 := self_corrected_cross0 g_unit.
split=> //; first exact: remove_eog_unit.
by apply: (uncorrelated_noop _ c0).2; rewrite gram_set_eeg.
Qed.

End Further.

Lemma coefficients_unique_witness :
  [/\ gram (cal_demo 0) \in unitmx,
      gram (cal_demo 0) *m cross (cal_demo 0) = cross (cal_demo 0)
    & b (cal_demo 0) = Ok (cross (cal_demo 0))].
Proof.
have g_unit := gram_cal_demo_unit 0.
have eq_c : gram (cal_demo 0) *m cross (cal_demo 0) = cross (cal_demo 0).
  by rewrite gram_cal_demo mul1mx.
split=> //; exact: (coefficients_unique g_unit eq_c).
Defined.

Lemma self_correction_is_idempotent_witness :
  gram (cal_demo 0) \in unitmx
  /\ exists raw3,
       [/\ remove_eog (cal_demo 0) (cal_demo 0) = Ok raw3, cross raw3 = 0
         & remove_eog raw3 raw3 = Ok raw3].
Proof.
split; first exact: gram_cal_demo_unit.
exact: (@self_correction_is_idempotent _ (cal_demo 0) (gram_cal_demo_unit 0)).
Defined.

(** * More on [removing-eog-regression.py] *)

Section Outcomes.

Variable F : fieldType.

Implicit Types (raw : Raw F).

Lemma gram_sym raw : (gram raw)^T = gram raw.
Proof. by rewrite /gram trmx_mul trmxK. Qed.

Lemma singular_gram_kernel raw :
  gram raw \notin unitmx ->
  exists2 K : 'M[F]_(2, n_eeg), K != 0 & gram raw *m K = 0.
Proof.
rewrite -row_free_unit -kermx_eq0 => /rowV0Pn [v /sub_kermxP vG0 v_neq0].
exists (v^T *m const_mx 1).
  apply: contraNneq v_neq0 => K0; apply/eqP/rowP=> j.
  move/matrixP: K0 => /(_ j ord0); rewrite !mxE big_ord_recl big_ord0.
  by rewrite !mxE mulr1 addr0.
by rewrite mulmxA -[gram raw]gram_sym -trmx_mul vG0 trmx0 mul0mx.
Qed.

(** A calibration recording with fewer than two samples, the empty one
    included, cannot tell the two bipolar derivations apart: [G] is
    singular, and the normal equations do not determine the coefficients,
    every solution comes with another one.  (Whether the solver notices
    is another matter: in float64 it need not.) *)
Theorem short_calibration_underdetermined raw1 :
  (n_times raw1 < 2)%N ->
  gram raw1 \notin unitmx
  /\ forall B, gram raw1 *m B = cross raw1 ->
       exists2 B', B' != B & gram raw1 *m B' = cross raw1.
Proof.
move=> /short_gram_singular g_sing; split=> // B eqB.
have [K K_neq0 GK0] := singular_gram_kernel g_sing.
exists (B + K); last by rewrite mulmxDr GK0 addr0.
by rewrite -subr_eq0 addrC addKr.
Qed.

Lemma raw_eog_common raw (o : 'rV[F]_(n_times raw)) :
  (forall i j, eog_rows raw i j = o 0 j) -> raw_eog raw = 0.
Proof.
move=> common; apply/matrixP=> i j; rewrite !mxE.
rewrite (eq_bigr (fun k => bip F i k * o 0 j)).
  by move=> k _; rewrite common.
by rewrite -mulr_suml bip_row_sum mul0r.
Qed.

(** A calibration recording whose three raw EOG channels carry one and the
    same signal has no bipolar EOG at all: [G] is zero and lines 17-27
    raise [LinAlgError]. *)
Theorem common_mode_calibration_raises raw1 raw2 (o : 'rV[F]_(n_times raw1)) :
  (forall i j, eog_rows raw1 i j = o 0 j) ->
  gram raw1 = 0 /\ remove_eog raw1 raw2 = Raise LinAlgError.
Proof.
move=> /raw_eog_common E0.
have g0 : gram raw1 = 0 by rewrite /gram E0 mul0mx.
by split=> //; apply: remove_eog_singular; rewrite g0 zero_singular.
Qed.

End Outcomes.

Section WellPosed.

Variable R : realFieldType.

Implicit Types (raw : Raw R).

Lemma row_sqr_eq0 n (v : 'rV[R]_n) : v *m v^T = 0 -> v = 0.
Proof.
move=> /matrixP /(_ 0 0); rewrite !mxE => sum0.
apply/rowP=> j; rewrite mxE; apply/eqP.
have := sum0; move/eqP; rewrite psumr_eq0.
  by move=> k _; rewrite mxE -expr2 sqr_ge0.
by move=> /allP /(_ j (mem_index_enum _)) /=; rewrite mxE -expr2 sqrf_eq0.
Qed.

Lemma gram_kernel m n (E : 'M[R]_(m, n)) (K : 'M[R]_(m, m)) :
  K *m (E *m E^T) = 0 -> K *m E = 0.
Proof.
move=> KG0; apply/row_matrixP=> i; rewrite row_mul row0.
apply: row_sqr_eq0; rewrite trmx_mul mulmxA -[_ *m E *m _]mulmxA.
by rewrite -row_mul KG0 row0 mul0mx.
Qed.

Lemma gram_mxrank m n (E : 'M[R]_(m, n)) : \rank (E *m E^T) = \rank E.
Proof.
apply/eqP; rewrite eqn_leq mxrankM_maxl /=.
have : (kermx (E *m E^T) <= kermx E)%MS.
  by apply/sub_kermxP; apply: gram_kernel; exact: mulmx_ker.
by move/mxrankS; rewrite !mxrank_ker leq_sub2lE // rank_leq_row.
Qed.

(** Over an ordered field, the regression is well posed exactly when the
    two bipolar EOG derivations of the calibration recording are linearly
    independent: [G] is invertible if and only if the 2 x [n_times] matrix
    [bip @ raw1[22:]] has rank 2. *)
Theorem gram_unit_iff_independent raw :
  (gram raw \in unitmx) = row_free (raw_eog raw).
Proof. by rewrite -row_free_unit /row_free /gram gram_mxrank. Qed.

End WellPosed.

Section Scaling.

Variable F : fieldType.

Implicit Types (raw : Raw F) (c : F).











End Scaling.

Section Units.



Variable R : numFieldType.



End Units.

Section LinearMap.

Variable F : fieldType.

Implicit Types (raw : Raw F).

Lemma eeg_corrected_mul coef raw2 :
  eeg_corrected coef raw2
  = eeg_rows raw2 - coef^T *m (bip F *m eog_rows raw2).
Proof.
by rewrite eeg_correctedE /predicted /raw_eeg /raw_eog trmx_mul trmxK.
Qed.

Lemma correction_matrix_mul coef raw2 :
  correction_matrix coef *m _data raw2
  = col_mx (eeg_corrected coef raw2) (eog_rows raw2).
Proof.
rewrite -{1}(vsubmxK (_data raw2)) /correction_matrix mul_block_col.
rewrite !mul1mx mul0mx add0r mulNmx -mulmxA -/(eeg_rows raw2).
by rewrite -/(eog_rows raw2) eeg_corrected_mul.
Qed.

(** Once the coefficients are known, lines 25-27 are one matrix product:
    the data of [raw3] is a fixed 25 x 25 matrix, which depends on the
    calibration recording alone, times the data of the target. *)
Theorem correction_is_matrix_product raw1 raw2 :
  gram raw1 \in unitmx ->
  exists coef,
    b raw1 = Ok coef
    /\ remove_eog raw1 raw2 = Ok (MkRaw (correction_matrix coef *m _data raw2)).
Proof.
move=> g_unit; exists (invmx (gram raw1) *m cross raw1).
split; first exact: b_unit.
by rewrite remove_eog_unit // correction_matrix_mul.
Qed.

(** The correction does not mix samples: the corrected EEG values at one
    sample are determined by the 25 values of the target at that sample.
    Two targets, or two instants of one target, that carry the same
    values are corrected to the same values. *)
Theorem correction_is_samplewise raw1 raw2 raw2'
    (j : 'I_(n_times raw2)) (j' : 'I_(n_times raw2')) :
  gram raw1 \in unitmx ->
  col j (_data raw2) = col j' (_data raw2') ->
  exists Y, exists Y',
    [/\ remove_eog raw1 raw2 = Ok (set_eeg raw2 Y),
        remove_eog raw1 raw2' = Ok (set_eeg raw2' Y')
      & col j Y = col j' Y'].
Proof.
move=> g_unit same.
pose coef := invmx (gram raw1) *m cross raw1.
exists (eeg_corrected coef raw2); exists (eeg_corrected coef raw2').
split; [exact: remove_eog_unit | exact: remove_eog_unit |].
have col_corrected raw (k : 'I_(n_times raw)) :
    col k (eeg_corrected coef raw)
    = usubmx (correction_matrix coef *m col k (_data raw)).
  rewrite [in RHS]colE mulmxA correction_matrix_mul -mul_usub_mx col_mxKu.
  by rewrite -colE.
by rewrite !col_corrected same.
Qed.

End LinearMap.

Section Contamination.

Variable F : fieldType.

Implicit Types (raw : Raw F).

(** The regression removes what it is built to remove.  Suppose that in
    both recordings the EEG rows are a clean part plus the bipolar EOG
    mixed in by one matrix [A] (EEG = clean + A.T @ EOG), and that in the
    calibration recording the clean part has no cross-product with the
    bipolar EOG.  Then the coefficients are [A] and the script returns the
    target with its clean EEG. *)
Theorem linear_contamination_removed raw1 raw2 (A : 'M[F]_(2, n_eeg))
    (clean1 : 'M[F]_(n_eeg, n_times raw1))
    (clean2 : 'M[F]_(n_eeg, n_times raw2)) :
  gram raw1 \in unitmx ->
  eeg_rows raw1 = clean1 + A^T *m raw_eog raw1 ->
  raw_eog raw1 *m clean1^T = 0 ->
  eeg_rows raw2 = clean2 + A^T *m raw_eog raw2 ->
  b raw1 = Ok A /\ remove_eog raw1 raw2 = Ok (set_eeg raw2 clean2).
Proof.
move=> g_unit mix1 orth mix2.
have bA : b raw1 = Ok A.
  rewrite b_unit // /cross /raw_eeg mix1 linearD /= mulmxDr orth add0r.
  by rewrite trmx_mul trmxK [raw_eog raw1 *m _]mulmxA -/(gram raw1) mulKmx.
split=> //; rewrite /remove_eog bA /=; congr (Ok (set_eeg _ _)).
by rewrite eeg_correctedE /predicted /raw_eeg mix2 trmx_mul trmxK addrK.
Qed.

End Contamination.

Section SampleOrder.

Variable F : fieldType.

Implicit Types (raw : Raw F).

Lemma raw_eog_permute raw s :
  raw_eog (permute_samples raw s) = col_perm s (raw_eog raw).
Proof.
rewrite /raw_eog /eog_rows /permute_samples /= !col_permE.
by rewrite -mul_dsub_mx mulmxA.
Qed.

Lemma eeg_rows_permute raw s :
  eeg_rows (permute_samples raw s) = col_perm s (eeg_rows raw).
Proof.
by rewrite /eeg_rows /permute_samples /= !col_permE -mul_usub_mx.
Qed.

Lemma col_perm_mul_tr m1 m2 n (s : 'S_n) (A : 'M[F]_(m1, n))
    (B : 'M[F]_(m2, n)) :
  col_perm s A *m (col_perm s B)^T = A *m B^T.
Proof.
rewrite !col_permE trmx_mul tr_perm_mx invgK mulmxA -[A *m _ *m _]mulmxA.
by rewrite -perm_mxM mulVg perm_mx1 mulmx1.
Qed.

(** The order of the calibration samples plays no part: shuffling them
    changes neither [G], nor the coefficients, nor the outcome of the
    script. *)
Theorem calibration_order_irrelevant raw1 raw2 (s : 'S_(n_times raw1)) :
  [/\ gram (permute_samples raw1 s) = gram raw1,
      b (permute_samples raw1 s) = b raw1
    & remove_eog (permute_samples raw1 s) raw2 = remove_eog raw1 raw2].
Proof.
have g_eq : gram (permute_samples raw1 s) = gram raw1.
  by rewrite /gram raw_eog_permute col_perm_mul_tr.
have c_eq : cross (permute_samples raw1 s) = cross raw1.
  by rewrite /cross /raw_eeg raw_eog_permute eeg_rows_permute col_perm_mul_tr.
have b_eq : b (permute_samples raw1 s) = b raw1 by rewrite /b g_eq c_eq.
by split=> //; rewrite /remove_eog b_eq.
Qed.

End SampleOrder.

(** * [loading-eeg-data.py] *)

Section Strip.

Implicit Types (chars s t : str).

Lemma lstrip_cat chars l t :
  all (mem chars) l -> lstrip chars (l ++ t) = lstrip chars t.
Proof. by elim: l => [|c l IH] //= /andP[-> /IH]. Qed.

Lemma lstrip_all chars l : all (mem chars) l -> lstrip chars l = [::].
Proof. by move=> all_l; rewrite -[l]cats0 lstrip_cat. Qed.

Lemma lstrip_id chars s : ~~ starts_in chars s -> lstrip chars s = s.
Proof. by case: s => [|c s] //= /negbTE ->. Qed.

Lemma lstripP chars s :
  exists2 l, all (mem chars) l & s = l ++ lstrip chars s.
Proof.
elim: s => [|c s [l all_l eq_s]] /=; first by exists [::].
case: ifP => [c_in | _]; last by exists [::].
by exists (c :: l); rewrite /= ?c_in // -eq_s.
Qed.

Lemma lstrip_starts chars s : ~~ starts_in chars (lstrip chars s).
Proof. by elim: s => [|c s IH] //=; case: ifP => //= ->. Qed.

Lemma starts_in_cat chars s t :
  s != [::] -> starts_in chars (s ++ t) = starts_in chars s.
Proof. by case: s. Qed.

Lemma strip_clean chars l core r :
  all (mem chars) l -> all (mem chars) r ->
  ~~ starts_in chars core -> ~~ ends_in chars core ->
  strip chars (l ++ core ++ r) = core.
Proof.
move=> all_l all_r clean_l clean_r; rewrite /strip /rstrip lstrip_cat //.
have [-> | core_neq0] := eqVneq core [::].
  by rewrite /= lstrip_all // lstrip_all.
rewrite [lstrip chars (core ++ r)]lstrip_id ?starts_in_cat //.
by rewrite rev_cat lstrip_cat ?all_rev // lstrip_id // revK.
Qed.

Lemma strip_decompose chars s :
  exists l, exists r,
    [/\ all (mem chars) l, all (mem chars) r
      & s = l ++ strip chars s ++ r].
Proof.
have [l all_l {1}->] := lstripP chars s.
have [r all_r eq_t] := lstripP chars (rev (lstrip chars s)).
exists l; exists (rev r); split=> //; first by rewrite all_rev.
by rewrite /strip /rstrip -rev_cat -eq_t revK.
Qed.

Lemma strip_ends chars s : ~~ ends_in chars (strip chars s).
Proof. by rewrite /ends_in /strip /rstrip revK lstrip_starts. Qed.

Lemma strip_starts chars s : ~~ starts_in chars (strip chars s).
Proof.
rewrite /strip /rstrip.
have := lstrip_starts chars s; set t := lstrip chars s => clean_t.
have [r all_r eq_t] := lstripP chars (rev t).
set u := lstrip chars (rev t) in eq_t *.
have t_eq : t = rev u ++ rev r by rewrite -rev_cat -eq_t revK.
case u_nil: (rev u) => [|c v] //.
by move: clean_t; rewrite t_eq u_nil.
Qed.

(** [s.strip(".")] removes dots at both ends and nothing else: [s] is
    the stripped name with a run of dots before and a run of dots after,
    and the stripped name neither starts nor ends with a dot. *)
Theorem strip_dots_spec s :
  exists l, exists r,
    [/\ all (mem dot) l, all (mem dot) r,
        s = l ++ strip_dots s ++ r,
        ~~ starts_in dot (strip_dots s)
      & ~~ ends_in dot (strip_dots s)].
Proof.
have [l [r [all_l all_r eq_s]]] := strip_decompose dot s.
by exists l; exists r; split=> //; [exact: strip_starts | exact: strip_ends].
Qed.

Lemma strip_idem chars s : strip chars (strip chars s) = strip chars s.
Proof.
rewrite -[X in strip chars X]cats0 -[X in strip chars X]cat0s.
by apply: strip_clean => //; [exact: strip_starts | exact: strip_ends].
Qed.

(** Stripping is idempotent, and it leaves a name alone exactly when the
    name neither starts nor ends with a dot. *)
Theorem strip_dots_fixpoint s :
  strip_dots (strip_dots s) = strip_dots s
  /\ (strip_dots s == s) = ~~ starts_in dot s && ~~ ends_in dot s.
Proof.
split; first exact: strip_idem.
apply/eqP/andP=> [<- | [clean_l clean_r]].
  by split; [exact: strip_starts | exact: strip_ends].
rewrite -[X in strip_dots X]cats0 -[X in strip_dots X]cat0s.
exact: strip_clean.
Qed.

End Strip.

Section Rename.

Implicit Types (names new_names : seq str).

Lemma rename_channels_ok mapping names new_names :
  rename_channels mapping names = Ok new_names ->
  new_names = [seq mapping s | s <- names] /\ uniq new_names.
Proof. by rewrite /rename_channels; case: ifP => // new_uniq [<-]. Qed.

(** When line 7 succeeds, the recording has as many channels as before,
    each new name is the old name stripped of the dots at its ends, the
    new names are unique and none starts or ends with a dot; renaming a
    second time would change nothing. *)
Theorem rename_line7_ok names new_names :
  rename_line7 names = Ok new_names ->
  [/\ size new_names = size names,
      forall i, (i < size names)%N ->
        nth [::] new_names i = strip_dots (nth [::] names i),
      uniq new_names,
      all (fun s => ~~ starts_in dot s && ~~ ends_in dot s) new_names
    & rename_line7 new_names = Ok new_names].
Proof.
move=> /rename_channels_ok [new_eq new_uniq]; split=> //.
- by rewrite new_eq size_map.
- by move=> i lt_i; rewrite new_eq (nth_map [::]).
- rewrite new_eq all_map; apply/allP=> s _ /=.
  by rewrite strip_starts strip_ends.
rewrite /rename_line7 /rename_channels.
have -> : [seq strip_dots s | s <- new_names] = new_names.
  by rewrite new_eq -map_comp; apply: eq_map => s /=; exact: strip_idem.
by rewrite new_uniq.
Qed.

End Rename.

Section AverageReference.

Variable R : numFieldType.
Variables n N : nat.

Implicit Types (d : 'M[R]_(n.+1, N)).

Lemma channel_meanE d j :
  channel_mean d 0 j = n.+1%:R^-1 * \sum_i d i j.
Proof.
rewrite /channel_mean mxE summxE; congr (_ * _).
by apply: eq_bigr => i _; rewrite mxE.
Qed.

Lemma channels_neq0 : n.+1%:R != 0 :> R.
Proof. by rewrite pnatr_eq0. Qed.

Lemma reference_sum d j : \sum_i set_eeg_reference d i j = 0.
Proof.
have -> : \sum_i set_eeg_reference d i j
          = \sum_i (d i j - channel_mean d 0 j).
  by apply: eq_bigr => i _; rewrite mxE.
rewrite sumrB sumr_const card_ord channel_meanE -mulr_natl mulrA.
by rewrite divff ?channels_neq0 // mul1r subrr.
Qed.

Lemma reference_mean0 d : channel_mean (set_eeg_reference d) = 0.
Proof.
by apply/rowP=> j; rewrite channel_meanE reference_sum mulr0 mxE.
Qed.

(** After [set_eeg_reference("average")] the channels sum to zero at
    every sample, and re-referencing a second time changes nothing. *)
Theorem average_reference_centers d :
  (forall j, \sum_i set_eeg_reference d i j = 0)
  /\ set_eeg_reference (set_eeg_reference d) = set_eeg_reference d.
Proof.
split; first exact: reference_sum.
apply/matrixP=> i j; rewrite [LHS]mxE reference_mean0.
by rewrite [(0 : 'rV_N) 0 j]mxE subr0.
Qed.

(** The average reference removes what is common to all channels and
    nothing else: the difference between any two channels is what it was,
    and a signal added to every channel alike is removed entirely. *)
Theorem average_reference_common_mode d (o : 'rV[R]_N) i k j :
  set_eeg_reference d i j - set_eeg_reference d k j = d i j - d k j
  /\ set_eeg_reference (\matrix_(i', j') (d i' j' + o 0 j'))
     = set_eeg_reference d.
Proof.
split; first by rewrite !mxE opprB addrA subrK.
apply/matrixP=> i' j'; rewrite [LHS]mxE [RHS]mxE !channel_meanE.
rewrite [(\matrix_(_, _) _) i' j']mxE.
have -> : \sum_i0 (\matrix_(i1, j1) (d i1 j1 + o 0 j1)) i0 j'
          = \sum_i0 (d i0 j' + o 0 j').
  by apply: eq_bigr => i0 _; rewrite mxE.
rewrite big_split /= sumr_const card_ord mulrDr -[o 0 j' *+ _]mulr_natl.
by rewrite mulKf ?channels_neq0 // opprD addrACA subrr addr0.
Qed.

End AverageReference.

(** * [pca-zca.py] *)

Section WhiteningTheory.

Variable R : realFieldType.

(** ** Covariance under a linear map *)

Lemma row_means_mul p q n (W : 'M[R]_(q, p)) (x : 'M[R]_(p, n)) :
  row_means (W *m x) = W *m row_means x.
Proof. by rewrite /row_means -scalemxAr mulmxA. Qed.

Lemma centered_mul p q n (W : 'M[R]_(q, p)) (x : 'M[R]_(p, n)) :
  centered (W *m x) = W *m centered x.
Proof. by rewrite /centered row_means_mul mulmxBr mulmxA. Qed.

Lemma cov_mul p q n (W : 'M[R]_(q, p)) (x : 'M[R]_(p, n)) :
  cov (W *m x) = W *m cov x *m W^T.
Proof.
by rewrite /cov centered_mul trmx_mul -scalemxAr -scalemxAl !mulmxA.
Qed.

Lemma inv_sqrt_diag p (evals d : 'rV[R]_p) :
  inv_sqrt_spec evals d ->
  diag_mx d *m diag_mx evals *m diag_mx d = 1%:M.
Proof.
move=> dP; rewrite !mulmx_diag; apply/matrixP=> i j; rewrite !mxE.
by rewrite mulrAC -expr2 dP.
Qed.

Lemma whitening_core p (sigma : 'M[R]_p) evals evecs d :
  eigh_spec sigma evals evecs -> inv_sqrt_spec evals d ->
  diag_mx d *m evecs^T *m sigma *m (diag_mx d *m evecs^T)^T = 1%:M.
Proof.
case=> orth eig dP; rewrite trmx_mul trmxK tr_diag_mx.
rewrite -[_ *m sigma]mulmxA !mulmxA -[_ *m sigma *m evecs]mulmxA eig.
by rewrite !mulmxA -[_ *m evecs^T *m evecs]mulmxA orth mulmx1 inv_sqrt_diag.
Qed.

(** ** The most extreme points *)

Lemma key_le_trans (keys : seq R) : transitive (key_le keys).
Proof. by move=> j i k; apply: le_trans. Qed.

Lemma key_le_total (keys : seq R) : total (key_le keys).
Proof. by move=> i j; apply: le_total. Qed.

Lemma argsortP (keys : seq R) : is_argsort keys (argsort keys).
Proof.
by rewrite /is_argsort /argsort perm_sort perm_refl sort_sorted //;
   apply: key_le_total.
Qed.

Lemma set1_uniq (keys : seq R) idx : is_argsort keys idx -> uniq (set1 idx).
Proof.
by case/andP=> /perm_uniq idxP _; rewrite drop_uniq // idxP iota_uniq.
Qed.

Lemma set1_sub (keys : seq R) idx i :
  is_argsort keys idx -> i \in set1 idx -> (i < size keys)%N.
Proof.
case/andP=> /perm_mem idxP _ /mem_drop.
by rewrite idxP mem_iota add0n.
Qed.

Lemma cov_pca p n (x : 'M[R]_(p, n)) evals evecs d :
  eigh_spec (cov x) evals evecs -> inv_sqrt_spec evals d ->
  cov (pca d evecs x) = 1%:M.
Proof. by move=> eigP dP; rewrite /pca cov_mul (whitening_core eigP dP). Qed.

(** Line 36 whitens: whenever [evals] and [evecs] are an orthonormal
    eigendecomposition of [np.cov(x)], as [np.linalg.eigh] returns it, and
    no eigenvalue is zero, the covariance matrix of the PCA-transformed
    data is the identity. *)
Theorem pca_whitens p n (x : 'M[R]_(p, n)) evals evecs d :
  eigh_spec (cov x) evals evecs -> inv_sqrt_spec evals d ->
  cov (pca d evecs x) = 1%:M.
Proof. exact: cov_pca. Qed.

(** Line 53 whitens as well: the ZCA transform is the PCA transform
    rotated back by [evecs], its matrix is symmetric, and the covariance
    matrix of the transformed data is again the identity. *)
Theorem zca_whitens p n (x : 'M[R]_(p, n)) evals evecs d :
  eigh_spec (cov x) evals evecs -> inv_sqrt_spec evals d ->
  [/\ zca d evecs x = evecs *m pca d evecs x,
      (evecs *m diag_mx d *m evecs^T)^T = evecs *m diag_mx d *m evecs^T
    & cov (zca d evecs x) = 1%:M].
Proof.
move=> eigP dP.
have zcaE : zca d evecs x = evecs *m pca d evecs x.
  by rewrite /zca /pca !mulmxA.
split=> //; first by rewrite !trmx_mul trmxK tr_diag_mx mulmxA.
rewrite zcaE cov_mul (cov_pca eigP dP) mulmx1.
by case: eigP => /mulmx1C.
Qed.

(** Lines 14-15 split the points in two: for any index order that
    [np.argsort] may return, [set1] and [set2] together list every index
    once, [set1] holds 20 of them (all, when there are fewer), and no point
    of [set2] has a larger key than a point of [set1]. *)
Theorem extreme_points_partition (keys : seq R) idx :
  is_argsort keys idx ->
  [/\ perm_eq (set1 idx ++ set2 (size keys) idx) (iota 0 (size keys)),
      size (set1 idx) = minn 20 (size keys),
      size (set2 (size keys) idx) = (size keys - 20)%N
    & forall i j, i \in set1 idx -> j \in set2 (size keys) idx ->
        nth 0 keys j <= nth 0 keys i].
Proof.
move=> idxP; have [perm_idx sorted_idx] := andP idxP.
have size_idx : size idx = size keys by rewrite (perm_size perm_idx) size_iota.
have uniq1 := set1_uniq idxP.
have perm1 : perm_eq (set1 idx) [seq i <- iota 0 (size keys) | i \in set1 idx].
  apply: uniq_perm => // [|i]; first by rewrite filter_uniq ?iota_uniq.
  rewrite mem_filter mem_iota add0n /=.
  by case: (boolP (i \in _)) => // /(set1_sub idxP) ->.
have perm12 : perm_eq (set1 idx ++ set2 (size keys) idx) (iota 0 (size keys)).
  by rewrite (perm_catr _ perm1) /set2 perm_filterC perm_refl.
have size1 : size (set1 idx) = minn 20 (size keys).
  rewrite /set1 size_drop size_idx minnC /minn.
  case: ltnP => [lt20|le20]; last by rewrite subKn.
  by move: (ltnW lt20); rewrite -subn_eq0 => /eqP->; rewrite subn0.
split=> // [|i j].
  apply/eqP; rewrite -(eqn_add2l (size (set1 idx))) -size_cat.
  rewrite (perm_size perm12) size_iota size1 minnC /minn.
  case: ltnP => [lt20|le20]; last by rewrite subnKC.
  by move: (ltnW lt20); rewrite -subn_eq0 => /eqP->; rewrite addn0.
move=> i1; rewrite mem_filter mem_iota add0n /= => /andP[j1 j_lt].
have : j \in idx by rewrite (perm_mem perm_idx) mem_iota.
rewrite -(cat_take_drop (size idx - 20) idx) mem_cat (negPf j1) orbF => j0.
move: sorted_idx; rewrite (sorted_pairwise (@key_le_trans keys)).
rewrite -(cat_take_drop (size idx - 20) idx) pairwise_cat.
by case/and3P=> /allrelP/(_ j i j0 i1).
Qed.

End WhiteningTheory.

(** * Instances for the properties above *)

Section MoreSamples.

Lemma eog_rows_const_raw N c i j :
  eog_rows (const_raw N c) i j = (const_mx c : 'rV_N) 0 j.
Proof. by rewrite /eog_rows /const_raw /= !mxE. Qed.

Lemma col_const_raw N M c (j : 'I_N) (k : 'I_M) :
  col j (_data (const_raw N c)) = col k (_data (const_raw M c)).
Proof. by apply/colP=> i; rewrite /const_raw /= !mxE. Qed.

Lemma eeg_rows_cal_demo N :
  eeg_rows (cal_demo N)
  = clean_demo N + (const_mx 1 : 'M_(2, n_eeg))^T *m raw_eog (cal_demo N).
Proof.
rewrite raw_eog_cal_demo mul_mx_row mulmx1 mulmx0 add_row_mx add0r addr0.
by rewrite trmx_const /eeg_rows /cal_demo /= col_mxKu row_mx_const.
Qed.

Lemma clean_demo_orth N : raw_eog (cal_demo N) *m (clean_demo N)^T = 0.
Proof.
rewrite raw_eog_cal_demo /clean_demo tr_row_mx mul_row_col.
by rewrite trmx0 mulmx0 mul0mx addr0.
Qed.

Lemma cov_x_demo : cov x_demo = diag_mx evals_demo.
Proof.
apply/matrixP=> i j.
rewrite /cov /centered /row_means.
do 4!rewrite !mxE ?big_ord_recl ?big_ord0.
case: i => [[|[|i]] lt_i] //=; case: j => [[|[|j]] lt_j] //=;
  by apply/eqP.
Qed.

Lemma eigh_demo : eigh_spec (cov x_demo) evals_demo 1%:M.
Proof. by split; rewrite ?trmx1 ?mulmx1 // mul1mx cov_x_demo. Qed.

Lemma inv_sqrt_demo : inv_sqrt_spec evals_demo d_demo.
Proof.
by move=> i; rewrite !mxE; case: i => [[|[|i]] lt_i] //=; apply/eqP.
Qed.

End MoreSamples.

Lemma short_calibration_underdetermined_witness :
  (n_times spike_demo < 2)%N
  /\ (gram spike_demo \notin unitmx
      /\ forall B, gram spike_demo *m B = cross spike_demo ->
           exists2 B', B' != B & gram spike_demo *m B' = cross spike_demo).
Proof.
split; first by [].
exact: (@short_calibration_underdetermined _ spike_demo isT).
Defined.

Lemma common_mode_calibration_raises_witness :
  (forall i j, eog_rows (const_raw 4 1) i j = (const_mx 1 : 'rV_4) 0 j)
  /\ (gram (const_raw 4 1) = 0
      /\ remove_eog (const_raw 4 1) (const_raw 3 1) = Raise LinAlgError).
Proof.
split; first exact: eog_rows_const_raw.
exact: (@common_mode_calibration_raises _ (const_raw 4 1) (const_raw 3 1)
          (const_mx 1) (@eog_rows_const_raw 4 1)).
Defined.


Lemma correction_is_matrix_product_witness :
  gram (cal_demo 0) \in unitmx
  /\ exists coef,
       b (cal_demo 0) = Ok coef
       /\ remove_eog (cal_demo 0) (const_raw 3 1)
          = Ok (MkRaw (correction_matrix coef *m _data (const_raw 3 1))).
Proof.
split; first exact: gram_cal_demo_unit.
exact: (@correction_is_matrix_product _ (cal_demo 0) (const_raw 3 1)
          (gram_cal_demo_unit 0)).
Defined.

Lemma correction_is_samplewise_witness :
  [/\ gram (cal_demo 0) \in unitmx,
      col (ord0 : 'I_3) (_data (const_raw 3 1))
      = col (ord_max : 'I_5) (_data (const_raw 5 1))
    & exists Y, exists Y',
        [/\ remove_eog (cal_demo 0) (const_raw 3 1)
            = Ok (set_eeg (const_raw 3 1) Y),
            remove_eog (cal_demo 0) (const_raw 5 1)
            = Ok (set_eeg (const_raw 5 1) Y')
          & col (ord0 : 'I_3) Y = col (ord_max : 'I_5) Y']].
Proof.
split; [exact: gram_cal_demo_unit | exact: col_const_raw |].
exact: (@correction_is_samplewise _ (cal_demo 0) (const_raw 3 1)
          (const_raw 5 1) ord0 ord_max (gram_cal_demo_unit 0)
          (col_const_raw 1 ord0 ord_max)).
Defined.

Lemma linear_contamination_removed_witness :
  [/\ gram (cal_demo 2) \in unitmx,
      eeg_rows (cal_demo 2)
      = clean_demo 2 + (const_mx 1 : 'M_(2, n_eeg))^T *m raw_eog (cal_demo 2),
      raw_eog (cal_demo 2) *m (clean_demo 2)^T = 0,
      eeg_rows (cal_demo 1)
      = clean_demo 1 + (const_mx 1 : 'M_(2, n_eeg))^T *m raw_eog (cal_demo 1)
    & b (cal_demo 2) = Ok (const_mx 1)
      /\ remove_eog (cal_demo 2) (cal_demo 1)
         = Ok (set_eeg (cal_demo 1) (clean_demo 1))].
Proof.
split; [exact: gram_cal_demo_unit | exact: eeg_rows_cal_demo
       | exact: clean_demo_orth | exact: eeg_rows_cal_demo |].
exact: (@linear_contamination_removed _ (cal_demo 2) (cal_demo 1)
          (const_mx 1) (clean_demo 2) (clean_demo 1)
          (gram_cal_demo_unit 2) (eeg_rows_cal_demo 2) (clean_demo_orth 2)
          (eeg_rows_cal_demo 1)).
Defined.

Lemma rename_line7_ok_witness :
  rename_line7 names_demo = Ok new_names_demo
  /\ [/\ size new_names_demo = size names_demo,
         forall i, (i < size names_demo)%N ->
           nth [::] new_names_demo i = strip_dots (nth [::] names_demo i),
         uniq new_names_demo,
         all (fun s => ~~ starts_in dot s && ~~ ends_in dot s) new_names_demo
       & rename_line7 new_names_demo = Ok new_names_demo].
Proof.
split; first by [].
exact: (@rename_line7_ok names_demo new_names_demo (erefl _)).
Defined.

Lemma pca_whitens_witness :
  [/\ eigh_spec (cov x_demo) evals_demo 1%:M,
      inv_sqrt_spec evals_demo d_demo
    & cov (pca d_demo 1%:M x_demo) = 1%:M].
Proof.
split; [exact: eigh_demo | exact: inv_sqrt_demo |].
exact: (@pca_whitens _ _ _ x_demo evals_demo 1%:M d_demo eigh_demo
          inv_sqrt_demo).
Defined.

Lemma zca_whitens_witness :
  [/\ eigh_spec (cov x_demo) evals_demo 1%:M,
      inv_sqrt_spec evals_demo d_demo
    & [/\ zca d_demo 1%:M x_demo = 1%:M *m pca d_demo 1%:M x_demo,
          (1%:M *m diag_mx d_demo *m 1%:M^T)^T
          = 1%:M *m diag_mx d_demo *m 1%:M^T
        & cov (zca d_demo 1%:M x_demo) = 1%:M]].
Proof.
split; [exact: eigh_demo | exact: inv_sqrt_demo |].
exact: (@zca_whitens _ _ _ x_demo evals_demo 1%:M d_demo eigh_demo
          inv_sqrt_demo).
Defined.

Lemma extreme_points_partition_witness :
  is_argsort keys_demo (argsort keys_demo)
  /\ [/\ perm_eq (set1 (argsort keys_demo)
                  ++ set2 (size keys_demo) (argsort keys_demo))
                 (iota 0 (size keys_demo)),
         size (set1 (argsort keys_demo)) = minn 20 (size keys_demo),
         size (set2 (size keys_demo) (argsort keys_demo))
         = (size keys_demo - 20)%N
       & forall i j, i \in set1 (argsort keys_demo) ->
           j \in set2 (size keys_demo) (argsort keys_demo) ->
           nth 0 keys_demo j <= nth 0 keys_demo i].
Proof.
split; first exact: argsortP.
exact: (@extreme_points_partition _ keys_demo (argsort keys_demo)
          (argsortP keys_demo)).
Defined.
